(** * ChatGPT With Voice: the turn-taking logic of [src/App.tsx]

    A shallow embedding of the [App] component: its React state, the event
    handlers and effects that change it, the promise chain attached to the
    answer request, and the render function as far as it decides what is
    active and whether the mic button is enabled.

    Strings are [string]; JavaScript numbers used as array indices are [Z]
    (so that [messages.length - 2] may be negative, as in the source); the
    browser capabilities the component calls ([SpeechRecognition],
    [window.speechSynthesis], [fetch], [console]) are recorded as a list of
    emitted effects.  The two scroll effects (lines 62-72) only touch the
    DOM; they are kept apart from [step], as [scrollEffects]. *)

From Stdlib Require Import String List Bool ZArith Arith Lia.
Import ListNotations.
Local Open Scope string_scope.
Local Open Scope list_scope.

(* ------------------------------------------------------------------ *)
(** ** Data model (lines 17-26, 29-45) *)

Record CreateChatGPTMessageResponse := {
  answer : string;
  conversationId : string;
  messageId : string
}.

Inductive MessageType := prompt | response.

Record Message := { type : MessageType; text : string }.

(** [conversationRef.current], a mutable cell holding two strings. *)
Module ConversationRef.
Record t := { id : string; currentMessageId : string }.
End ConversationRef.

(** The JSON body of the answer request.  [JSON.stringify] drops a field
    whose value is [undefined]: an absent field is [None]. *)
Module Body.
Record t := {
  text : string;
  conversationId : option string;
  parentMessageId : option string
}.
End Body.

(** What [useSpeechRecognition()] hands to the component at a render. *)
Record SpeechRecognitionHook := {
  browserSupportsSpeechRecognition : bool;
  isMicrophoneAvailable : bool;
  transcript : string;
  isListening : bool;
  finalTranscript : string
}.

Record App := {
  hook : SpeechRecognitionHook;
  isProcessing : bool;
  messages : list Message;
  conversationRef : ConversationRef.t
}.

(** Calls the component makes on its collaborators. *)
Inductive Effect :=
| abortListening                          (* SpeechRecognition.abortListening() *)
| startListening                          (* SpeechRecognition.startListening() *)
| speechSynthesis_cancel                  (* window.speechSynthesis.cancel() *)
| speechSynthesis_speak (utterance : string)
| fetch (body : Body.t)                   (* POST /chatgpt/messages *)
| console_warn.

(** The seeded transcript of [useState<Message[]>] (lines 37-43). *)
Definition initialMessages : list Message :=
  [ {| type := prompt; text := "Where is the Empire State Building?" |};
    {| type := response;
       text := "Lorem ipsum dolor sit amet, consectetur adipiscing elit. Sed sit amet elementum quam. Mauris sit amet tincidunt lacus. Quisque nec commodo ante. Duis ullamcorper suscipit lacus, a feugiat mauris. Integer rhoncus erat consequat nisi cursus porttitor." |} ].

(** The component at its first render; whether the browser supports
    speech recognition is fixed by the platform. *)
Definition initialApp (supported : bool) : App :=
  {| hook := {| browserSupportsSpeechRecognition := supported;
                isMicrophoneAvailable := true;
                transcript := "";
                isListening := false;
                finalTranscript := "" |};
     isProcessing := false;
     messages := initialMessages;
     conversationRef := {| ConversationRef.id := "";
                           ConversationRef.currentMessageId := "" |} |}.

(* ------------------------------------------------------------------ *)
(** ** Handlers as state-and-effect computations *)

(** A handler reads and updates the component state and emits effects. *)
Definition Act (A : Type) : Type := App -> A * App * list Effect.

Definition ret {A} (a : A) : Act A := fun s => (a, s, []).

Definition bind {A B} (m : Act A) (k : A -> Act B) : Act B :=
  fun s =>
    let '(a, s1, fx1) := m s in
    let '(b, s2, fx2) := k a s1 in
    (b, s2, fx1 ++ fx2).

Declare Scope act_scope.
Delimit Scope act_scope with act.
Notation "x <- m ;; k" := (bind m (fun x => k))
  (at level 61, m at next level, right associativity) : act_scope.
Notation "m ;; k" := (bind m (fun _ => k))
  (at level 61, right associativity) : act_scope.
Local Open Scope act_scope.

Definition get : Act App := fun s => (s, s, []).
Definition emit (e : Effect) : Act unit := fun s => (tt, s, [e]).

Definition setIsProcessing (b : bool) : Act unit :=
  fun s => (tt, {| hook := hook s; isProcessing := b;
                   messages := messages s;
                   conversationRef := conversationRef s |}, []).

(** [setMessages(oldMessages => f oldMessages)]. *)
Definition setMessages (f : list Message -> list Message) : Act unit :=
  fun s => (tt, {| hook := hook s; isProcessing := isProcessing s;
                   messages := f (messages s);
                   conversationRef := conversationRef s |}, []).

Definition setConversationRef (c : ConversationRef.t) : Act unit :=
  fun s => (tt, {| hook := hook s; isProcessing := isProcessing s;
                   messages := messages s;
                   conversationRef := c |}, []).

(** JavaScript truthiness of a string: every string but the empty one. *)
Definition truthy (x : string) : bool :=
  match x with
  | EmptyString => false
  | String _ _ => true
  end.

(** [x || undefined] on a string. *)
Definition orUndefined (x : string) : option string :=
  if truthy x then Some x else None.

(** Lines 47-54. *)
Definition recognizeSpeech : Act unit :=
  s <- get ;;
  if isListening (hook s) then
    emit abortListening
  else
    emit speechSynthesis_cancel ;;
    emit startListening.

(** Lines 56-60. *)
Definition speak (text : string) : Act unit :=
  emit speechSynthesis_cancel ;;
  emit (speechSynthesis_speak text).

(** The body of the effect on [finalTranscript], up to the [fetch] call
    (lines 74-94, 117). *)
Definition finalTranscriptEffect : Act unit :=
  s <- get ;;
  let finalTranscript := finalTranscript (hook s) in
  if truthy finalTranscript then
    setMessages (fun oldMessages =>
      oldMessages ++ [ {| type := prompt; text := finalTranscript |} ]) ;;
    setIsProcessing true ;;
    s <- get ;;
    emit (fetch
      {| Body.text := finalTranscript;
         Body.conversationId :=
           orUndefined (ConversationRef.id (conversationRef s));
         Body.parentMessageId :=
           orUndefined (ConversationRef.currentMessageId (conversationRef s)) |})
  else
    ret tt.

(* ------------------------------------------------------------------ *)
(** ** The promise chain of the answer request (lines 95-116) *)

(** A settled promise; the rejection reason is only logged. *)
Inductive Settled (A : Type) :=
| Fulfilled (a : A)
| Rejected.
Arguments Fulfilled {A} a.
Arguments Rejected {A}.

(** What the server sent: a status line and a body that either parses as
    JSON into the declared response type or does not parse. *)
Inductive ResponseBody :=
| NotJson
| Json (r : CreateChatGPTMessageResponse).

Record Response := { status : Z; responseBody : ResponseBody }.

(** [fetch] rejects on a transport failure and fulfils with the response
    otherwise, whatever its status. *)
Definition FetchOutcome := Settled Response.

(** [res.json()]. *)
Definition json (res : Response) : Settled CreateChatGPTMessageResponse :=
  match responseBody res with
  | Json r => Fulfilled r
  | NotJson => Rejected
  end.

Definition then_ {A B} (p : Settled A) (onFulfilled : A -> Act (Settled B))
  : Act (Settled B) :=
  match p with
  | Fulfilled a => onFulfilled a
  | Rejected => ret Rejected
  end.

Definition catch_ {A} (p : Settled A) (onRejected : Act (Settled A))
  : Act (Settled A) :=
  match p with
  | Fulfilled a => ret (Fulfilled a)
  | Rejected => onRejected
  end.

Definition finally_ {A} (p : Settled A) (onFinally : Act unit) : Act unit :=
  onFinally.

(** The text spoken and shown when the request fails (line 107). *)
Definition failureResponse : string :=
  "Failed to get the response, please try again".

(** The handlers run when the request issued at line 83 settles. *)
Definition onSettled (outcome : FetchOutcome) : Act unit :=
  p1 <- then_ outcome (fun res => ret (json res)) ;;
  p2 <- then_ p1 (fun res =>
          setConversationRef
            {| ConversationRef.id := conversationId res;
               ConversationRef.currentMessageId := messageId res |} ;;
          setMessages (fun oldMessages =>
            oldMessages ++ [ {| type := response; text := answer res |} ]) ;;
          speak (answer res) ;;
          ret (Fulfilled tt)) ;;
  p3 <- catch_ p2 (
          emit console_warn ;;
          let response_text := failureResponse in
          setMessages (fun oldMessages =>
            oldMessages ++ [ {| type := response; text := response_text |} ]) ;;
          speak response_text ;;
          ret (Fulfilled tt)) ;;
  finally_ p3 (setIsProcessing false).

(* ------------------------------------------------------------------ *)
(** ** Rendering (lines 120-224) *)

(** Lines 146-159.  [length] is [messages.length]; the last [return false]
    of the source is unreachable for the two message types. *)
Definition getIsActive (isListening : bool) (length : Z)
    (type : MessageType) (index : Z) : bool :=
  if isListening then false
  else
    match type with
    | prompt => (index =? length - 1)%Z || (index =? length - 2)%Z
    | response => (index =? length - 1)%Z
    end.

(** [Array.prototype.map] with the index passed to the callback. *)
Fixpoint mapi {A B} (f : A -> Z -> B) (index : Z) (l : list A) : list B :=
  match l with
  | [] => []
  | a :: l' => f a index :: mapi f (index + 1)%Z l'
  end.

(** The icon inside the mic button (lines 201-211); the button colour
    follows the same chain (lines 191-197). *)
Inductive MicIcon := Activity | Loader | Mic.

Definition micIcon (s : App) : MicIcon :=
  if isListening (hook s) then Activity
  else if isProcessing s then Loader
  else Mic.

Record MainView := {
  renderedMessages : list (Message * bool);   (* entry, isActive *)
  liveMessage : option string;                (* line 169, always active *)
  micButtonIcon : MicIcon;
  micButtonDisabled : bool;                   (* line 199 *)
  microphoneNotice : bool                     (* lines 219-221 *)
}.

Inductive View :=
| UnsupportedNotice                           (* lines 120-126 *)
| MainUI (v : MainView).

Definition render (s : App) : View :=
  if negb (browserSupportsSpeechRecognition (hook s)) then UnsupportedNotice
  else
    MainUI
      {| renderedMessages :=
           mapi (fun m index =>
                   (m, getIsActive (isListening (hook s))
                         (Z.of_nat (length (messages s))) (type m) index))
                0%Z (messages s);
         liveMessage :=
           if isListening (hook s) then Some (transcript (hook s)) else None;
         micButtonIcon := micIcon s;
         micButtonDisabled := isProcessing s;
         microphoneNotice := negb (isMicrophoneAvailable (hook s)) |}.

(* ------------------------------------------------------------------ *)
(** ** The component in its environment *)

(** The component together with the number of answer requests that were
    issued and have not settled yet. *)
Record World := { app : App; pending : nat }.

Definition initialWorld (supported : bool) : World :=
  {| app := initialApp supported; pending := 0 |}.

(** What can happen to a mounted component. *)
Inductive Event :=
| MicButtonClick                              (* onClick, line 198 *)
| HookListening (listening : bool)            (* the hook reports [listening] *)
| HookTranscript (transcript : string)
| HookFinalTranscript (finalTranscript : string)
| HookMicrophoneAvailable (available : bool)
| FetchSettles (outcome : FetchOutcome)
| MessageClick (index : nat).                 (* a rendered entry is selected *)

(** Modelled from the spec: the [Message] component (imported from
    [./Message], not part of the sources at hand), which on selection of a
    rendered entry calls the [onClick] it was given with the text of that
    entry, for replay on demand. *)
Definition messageOnClick (onClick : string -> Act unit) (m : Message)
  : Act unit :=
  onClick (text m).

Definition withHook (h : SpeechRecognitionHook) (s : App) : App :=
  {| hook := h; isProcessing := isProcessing s;
     messages := messages s; conversationRef := conversationRef s |}.

Definition isFetch (e : Effect) : bool :=
  match e with fetch _ => true | _ => false end.

(** Runs a handler and books the requests it issues as pending. *)
Definition perform (m : Act unit) (w : World) : World * list Effect :=
  let '(_, s, fx) := m (app w) in
  ({| app := s; pending := pending w + length (filter isFetch fx) |}, fx).

Definition stutter (w : World) : World * list Effect := (w, []).

(** One event.  A click reaches [recognizeSpeech] only through a rendered,
    enabled button; the effect on [finalTranscript] reruns only when that
    dependency changed (line 118); a settlement needs a pending request; a
    stored entry passes [speak] as its [onClick] (line 165). *)
Definition step (w : World) (e : Event) : World * list Effect :=
  let s := app w in
  let h := hook s in
  match e with
  | MicButtonClick =>
      match render s with
      | UnsupportedNotice => stutter w
      | MainUI v =>
          if micButtonDisabled v then stutter w else perform recognizeSpeech w
      end
  | HookListening b =>
      ({| app := withHook
                   {| browserSupportsSpeechRecognition :=
                        browserSupportsSpeechRecognition h;
                      isMicrophoneAvailable := isMicrophoneAvailable h;
                      transcript := transcript h;
                      isListening := b;
                      finalTranscript := finalTranscript h |} s;
          pending := pending w |}, [])
  | HookTranscript t =>
      ({| app := withHook
                   {| browserSupportsSpeechRecognition :=
                        browserSupportsSpeechRecognition h;
                      isMicrophoneAvailable := isMicrophoneAvailable h;
                      transcript := t;
                      isListening := isListening h;
                      finalTranscript := finalTranscript h |} s;
          pending := pending w |}, [])
  | HookMicrophoneAvailable b =>
      ({| app := withHook
                   {| browserSupportsSpeechRecognition :=
                        browserSupportsSpeechRecognition h;
                      isMicrophoneAvailable := b;
                      transcript := transcript h;
                      isListening := isListening h;
                      finalTranscript := finalTranscript h |} s;
          pending := pending w |}, [])
  | HookFinalTranscript t =>
      if String.eqb t (finalTranscript h) then stutter w
      else
        perform finalTranscriptEffect
          {| app := withHook
                      {| browserSupportsSpeechRecognition :=
                           browserSupportsSpeechRecognition h;
                         isMicrophoneAvailable := isMicrophoneAvailable h;
                         transcript := transcript h;
                         isListening := isListening h;
                         finalTranscript := t |} s;
             pending := pending w |}
  | FetchSettles outcome =>
      match pending w with
      | O => stutter w
      | S n => perform (onSettled outcome) {| app := s; pending := n |}
      end
  | MessageClick index =>
      match render s with
      | UnsupportedNotice => stutter w
      | MainUI v =>
          match nth_error (renderedMessages v) index with
          | Some (m, _) => perform (messageOnClick speak m) w
          | None => stutter w
          end
      end
  end.

(** A sequence of events, with the effects emitted along the way. *)
Fixpoint run (w : World) (events : list Event) : World * list Effect :=
  match events with
  | [] => (w, [])
  | e :: events' =>
      let '(w1, fx1) := step w e in
      let '(w2, fx2) := run w1 events' in
      (w2, fx1 ++ fx2)
  end.

Definition after (w : World) (events : list Event) : World :=
  fst (run w events).

(** The outcome as the second [.then] sees it: the answer when the request
    got through and the body parsed, a rejection otherwise. *)
Definition decoded (outcome : FetchOutcome)
  : Settled CreateChatGPTMessageResponse :=
  match outcome with
  | Fulfilled res => json res
  | Rejected => Rejected
  end.

Definition isPrompt (m : Message) : bool :=
  match type m with prompt => true | response => false end.

Definition countPrompts (ms : list Message) : nat :=
  length (filter isPrompt ms).

(* ------------------------------------------------------------------ *)
(** ** Vocabulary of the properties *)

(** At most one answer request is outstanding after every event. *)
Fixpoint atMostOnePending (w : World) (events : list Event) : bool :=
  match events with
  | [] => true
  | e :: events' =>
      let w' := fst (step w e) in
      (pending w' <=? 1)%nat && atMostOnePending w' events'
  end.

(** How often the hook's [finalTranscript] takes a new, non-empty value. *)
Fixpoint nonEmptyFinalTranscripts (current : string) (events : list Event)
  : nat :=
  match events with
  | [] => 0
  | HookFinalTranscript t :: events' =>
      (if negb (String.eqb t current) && truthy t then 1 else 0)
      + nonEmptyFinalTranscripts t events'
  | _ :: events' => nonEmptyFinalTranscripts current events'
  end.

(** How many finalized transcripts arrive while the hook reports
    [listening]. *)
Fixpoint finalizedWhileListening (w : World) (events : list Event) : nat :=
  match events with
  | [] => 0
  | e :: events' =>
      (match e with
       | HookFinalTranscript _ =>
           if isListening (hook (app w)) then 1 else 0
       | _ => 0
       end) + finalizedWhileListening (fst (step w e)) events'
  end.

(** No request of the sequence is answered. *)
Definition answerArrives (e : Event) : bool :=
  match e with
  | FetchSettles outcome =>
      match decoded outcome with Fulfilled _ => true | Rejected => false end
  | _ => false
  end.

Definition noAnswer (events : list Event) : bool :=
  forallb (fun e => negb (answerArrives e)) events.

(** Every answer of the sequence carries a non-empty [conversationId]. *)
Definition answerKeepsId (e : Event) : bool :=
  match e with
  | FetchSettles outcome =>
      match decoded outcome with
      | Fulfilled r => truthy (conversationId r)
      | Rejected => true
      end
  | _ => true
  end.

Definition answersKeepId (events : list Event) : bool :=
  forallb answerKeepsId events.

(** The active flag the view gives to the entry at [index]. *)
Definition activeAt (s : App) (index : nat) : option bool :=
  match render s with
  | UnsupportedNotice => None
  | MainUI v => option_map snd (nth_error (renderedMessages v) index)
  end.

(** Index of the most recent response entry, counted from the front. *)
Fixpoint lastResponse (index : nat) (ms : list Message) : option nat :=
  match ms with
  | [] => None
  | m :: ms' =>
      match lastResponse (S index) ms' with
      | Some i => Some i
      | None => match type m with
                | response => Some index
                | prompt => None
                end
      end
  end.

(** Indices of the prompt entries among the first [bound] entries, the most
    recent first. *)
Fixpoint promptsBefore (bound : nat) (ms : list Message) : list nat :=
  match bound with
  | O => []
  | S i =>
      match nth_error ms i with
      | Some m => if isPrompt m then i :: promptsBefore i ms
                  else promptsBefore i ms
      | None => promptsBefore i ms
      end
  end.

(** The entries the prose rule marks active while not listening: the most
    recent response and the two most recent prompts before it. *)
Definition recentTurnEntries (ms : list Message) : list nat :=
  match lastResponse 0 ms with
  | Some i => i :: firstn 2 (promptsBefore i ms)
  | None => []
  end.

(** Sample values used in the examples below. *)
Definition sampleAnswer : CreateChatGPTMessageResponse :=
  {| answer := "It's in NYC"; conversationId := "c1"; messageId := "m1" |}.

Definition ok (r : CreateChatGPTMessageResponse) : FetchOutcome :=
  Fulfilled {| status := 200; responseBody := Json r |}.

Definition awaiting : World :=
  after (initialWorld true)
    [MicButtonClick; HookListening true;
     HookFinalTranscript "Where is the Empire State Building?";
     HookListening false].

(** A server error whose body is JSON of the response shape. *)
Definition serverError : FetchOutcome :=
  Fulfilled {| status := 500;
               responseBody :=
                 Json {| answer := "Internal Server Error";
                         conversationId := "";
                         messageId := "" |} |}.

(** Two transcripts finalized in a row, then one settlement. *)
Definition overlappingRequests : list Event :=
  [HookFinalTranscript "first"; HookFinalTranscript "second";
   FetchSettles (ok sampleAnswer)].

(** One full turn of the scenario of the specification. *)
Definition oneTurn : list Event :=
  [MicButtonClick; HookListening true;
   HookFinalTranscript "Where is the Empire State Building?";
   HookListening false; FetchSettles (ok sampleAnswer)].

(* ------------------------------------------------------------------ *)
(** ** The rest of the component *)

(** The effects a run emits, in order. *)
Definition emitted (w : World) (events : list Event) : list Effect :=
  snd (run w events).

(** The background class of the mic button (lines 191-197). *)
Inductive ButtonColour := bg_accent1 | bg_accent2 | bg_dark.

Definition micButtonColour (s : App) : ButtonColour :=
  if isListening (hook s) then bg_accent1
  else if isProcessing s then bg_accent2
  else bg_dark.

(** [bottomDivRef.current?.scrollIntoView(...)]: the div the ref points to
    is part of the main view only (line 170), so on the fallback notice the
    ref is null and the call is skipped. *)
Inductive DomEffect := scrollIntoView.

Definition bottomDivRef (s : App) : bool :=
  browserSupportsSpeechRecognition (hook s).

Definition scrollToBottom (s : App) : list DomEffect :=
  if bottomDivRef s then [scrollIntoView] else [].

(** The body of the effect on [isListening] (lines 63-67). *)
Definition listeningScrollEffect (s : App) : list DomEffect :=
  if isListening (hook s) then scrollToBottom s else [].

(** The body of the effect on [messages.length] (lines 70-72). *)
Definition lengthScrollEffect (s : App) : list DomEffect :=
  scrollToBottom s.

(** The scroll effects that run after a later render: each one only when
    its dependency differs from the render before. *)
Definition scrollEffects (prev next : App) : list DomEffect :=
  (if Bool.eqb (isListening (hook prev)) (isListening (hook next)) then []
   else listeningScrollEffect next)
  ++ (if Nat.eqb (length (messages prev)) (length (messages next)) then []
      else lengthScrollEffect next).

(** All scrolls of a run of a mounted component. *)
Fixpoint scrolls (w : World) (events : list Event) : list DomEffect :=
  match events with
  | [] => []
  | e :: events' =>
      let w' := fst (step w e) in
      scrollEffects (app w) (app w') ++ scrolls w' events'
  end.

(** How often the hook's [listening] turns from false to true. *)
Fixpoint listeningRises (current : bool) (events : list Event) : nat :=
  match events with
  | [] => 0
  | HookListening b :: events' =>
      (if negb current && b then 1 else 0) + listeningRises b events'
  | _ :: events' => listeningRises current events'
  end.

Definition countResponses (ms : list Message) : nat :=
  length (filter (fun m => negb (isPrompt m)) ms).

Definition isSpeak (e : Effect) : bool :=
  match e with speechSynthesis_speak _ => true | _ => false end.

Definition isCapture (e : Effect) : bool :=
  match e with startListening | abortListening => true | _ => false end.

(** Every [speechSynthesis.speak] and every [startListening] of the
    sequence comes directly after a [speechSynthesis.cancel]; [prev] is the
    effect before the sequence, if any. *)
Fixpoint cancelFirst (prev : option Effect) (fx : list Effect) : bool :=
  match fx with
  | [] => true
  | e :: fx' =>
      (match e with
       | speechSynthesis_speak _ | startListening =>
           match prev with
           | Some speechSynthesis_cancel => true
           | _ => false
           end
       | _ => true
       end) && cancelFirst (Some e) fx'
  end.

Definition otherType (t : MessageType) : MessageType :=
  match t with prompt => response | response => prompt end.

Definition sameType (a b : MessageType) : bool :=
  match a, b with
  | prompt, prompt | response, response => true
  | _, _ => false
  end.

(** The entries take turns, the first one being of type [first]. *)
Fixpoint alternates (first : MessageType) (ms : list Message) : bool :=
  match ms with
  | [] => true
  | m :: ms' => sameType (type m) first && alternates (otherType first) ms'
  end.

(** The most recent entry of the transcript. *)
Definition lastMessage (ms : list Message) : option Message :=
  match rev ms with
  | m :: _ => Some m
  | [] => None
  end.

(** The answer the component handled last in a run, if any: a settlement
    counts only while a request is pending. *)
Fixpoint lastHandledAnswer (w : World) (events : list Event)
  : option CreateChatGPTMessageResponse :=
  match events with
  | [] => None
  | e :: events' =>
      match lastHandledAnswer (fst (step w e)) events' with
      | Some r => Some r
      | None =>
          match e, pending w with
          | FetchSettles outcome, S _ =>
              match decoded outcome with
              | Fulfilled r => Some r
              | Rejected => None
              end
          | _, _ => None
          end
      end
  end.

(** How many stored entries the view marks active. *)
Definition countActive (rendered : list (Message * bool)) : nat :=
  length (filter snd rendered).

(** Every event is of one of four kinds: it leaves the transcript, the
    flags and the ids alone (and emits something only when it is a click on
    the enabled mic button); or it is a new non-empty transcript, which
    appends a prompt and issues a request; or it settles a pending request,
    which appends a response and speaks it; or it selects a rendered entry,
    which is spoken again and changes nothing. *)
Inductive StepKind (w : World) (e : Event) : Prop :=
| Quiet :
    messages (app (fst (step w e))) = messages (app w) ->
    pending (fst (step w e)) = pending w ->
    isProcessing (app (fst (step w e))) = isProcessing (app w) ->
    conversationRef (app (fst (step w e))) = conversationRef (app w) ->
    snd (step w e) = []
    \/ (e = MicButtonClick
        /\ browserSupportsSpeechRecognition (hook (app w)) = true
        /\ isProcessing (app w) = false
        /\ fst (step w e) = w
        /\ (isListening (hook (app w)) = false
            /\ snd (step w e) = [speechSynthesis_cancel; startListening]
            \/ isListening (hook (app w)) = true
               /\ snd (step w e) = [abortListening])) ->
    StepKind w e
| Issues (t : string) :
    e = HookFinalTranscript t ->
    t <> "" ->
    messages (app (fst (step w e))) =
      messages (app w) ++ [ {| type := prompt; text := t |} ] ->
    pending (fst (step w e)) = S (pending w) ->
    isProcessing (app (fst (step w e))) = true ->
    conversationRef (app (fst (step w e))) = conversationRef (app w) ->
    snd (step w e) =
      [fetch {| Body.text := t;
                Body.conversationId :=
                  orUndefined (ConversationRef.id (conversationRef (app w)));
                Body.parentMessageId :=
                  orUndefined (ConversationRef.currentMessageId
                                 (conversationRef (app w))) |}] ->
    StepKind w e
| Settles (outcome : FetchOutcome) (u : string) :
    e = FetchSettles outcome ->
    pending w = S (pending (fst (step w e))) ->
    messages (app (fst (step w e))) =
      messages (app w) ++ [ {| type := response; text := u |} ] ->
    isProcessing (app (fst (step w e))) = false ->
    snd (step w e) = [speechSynthesis_cancel; speechSynthesis_speak u]
    \/ snd (step w e) =
         [console_warn; speechSynthesis_cancel; speechSynthesis_speak u] ->
    StepKind w e
| Replays (index : nat) (m : Message) :
    e = MessageClick index ->
    browserSupportsSpeechRecognition (hook (app w)) = true ->
    nth_error (messages (app w)) index = Some m ->
    fst (step w e) = w ->
    snd (step w e) =
      [speechSynthesis_cancel; speechSynthesis_speak (text m)] ->
    StepKind w e.


(** The invariant of a run with one request at a time: prompts and
    responses take turns, and the transcript ends with a prompt exactly
    while a request is pending. *)
Definition TakesTurns (w : World) : Prop :=
  alternates prompt (messages (app w)) = true
  /\ Nat.even (length (messages (app w))) = (pending w =? 0)%nat
  /\ option_map type (lastMessage (messages (app w))) =
       Some (if (pending w =? 0)%nat then response else prompt)
  /\ pending w <= 1.


(** Whether the event selects an entry that is on screen, and how many
    events of a run do. *)
Definition replayed (w : World) (e : Event) : nat :=
  match e with
  | MessageClick index =>
      if browserSupportsSpeechRecognition (hook (app w)) then
        match nth_error (messages (app w)) index with
        | Some _ => 1
        | None => 0
        end
      else 0
  | _ => 0
  end.

Fixpoint replays (w : World) (events : list Event) : nat :=
  match events with
  | [] => 0
  | e :: events' => replayed w e + replays (fst (step w e)) events'
  end.

(** No request of the sequence settles. *)
Definition noSettlement (events : list Event) : bool :=
  forallb (fun e => match e with FetchSettles _ => false | _ => true end)
    events.

(* ------------------------------------------------------------------ *)
(** ** Basic facts about [step] and [run] *)

Lemma after_nil (w : World) : after w [] = w.
Proof. reflexivity. Qed.

Lemma after_cons (w : World) (e : Event) (events : list Event) :
  after w (e :: events) = after (fst (step w e)) events.
Proof.
  unfold after. simpl.
  destruct (step w e) as [w1 fx1]. simpl.
  destruct (run w1 events) as [w2 fx2]. reflexivity.
Qed.

Lemma truthy_false (x : string) : truthy x = false <-> x = "".
Proof. destruct x; simpl; split; congruence. Qed.

Lemma truthy_true (x : string) : truthy x = true <-> x <> "".
Proof. destruct x; simpl; split; congruence. Qed.

(** Settlement of a pending request, spelled out for both outcomes. *)
Lemma step_settles_rejected (s : App) (n : nat) (outcome : FetchOutcome) :
  decoded outcome = Rejected ->
  step {| app := s; pending := S n |} (FetchSettles outcome) =
  ({| app := {| hook := hook s; isProcessing := false;
                messages := messages s ++
                  [ {| type := response; text := failureResponse |} ];
                conversationRef := conversationRef s |};
      pending := n |},
   [console_warn; speechSynthesis_cancel;
    speechSynthesis_speak failureResponse]).
Proof.
  intros H. destruct outcome as [[st [|r]]|]; simpl in H; try discriminate;
    cbv [step perform pending app]; simpl; rewrite Nat.add_0_r; reflexivity.
Qed.

Lemma step_settles_answered (s : App) (n : nat) (outcome : FetchOutcome)
    (r : CreateChatGPTMessageResponse) :
  decoded outcome = Fulfilled r ->
  step {| app := s; pending := S n |} (FetchSettles outcome) =
  ({| app := {| hook := hook s; isProcessing := false;
                messages := messages s ++
                  [ {| type := response; text := answer r |} ];
                conversationRef :=
                  {| ConversationRef.id := conversationId r;
                     ConversationRef.currentMessageId := messageId r |} |};
      pending := n |},
   [speechSynthesis_cancel; speechSynthesis_speak (answer r)]).
Proof.
  intros H. destruct outcome as [[st [|r']]|]; simpl in H; try discriminate.
  injection H as ->.
  cbv [step perform pending app]; simpl; rewrite Nat.add_0_r; reflexivity.
Qed.

(** A changed, non-empty [finalTranscript] appends a prompt and issues one
    request; an unchanged or empty one issues none. *)
Lemma step_finalTranscript_issues (w : World) (t : string) :
  t <> "" -> t <> finalTranscript (hook (app w)) ->
  step w (HookFinalTranscript t) =
  ({| app :=
        {| hook := {| browserSupportsSpeechRecognition :=
                        browserSupportsSpeechRecognition (hook (app w));
                      isMicrophoneAvailable :=
                        isMicrophoneAvailable (hook (app w));
                      transcript := transcript (hook (app w));
                      isListening := isListening (hook (app w));
                      finalTranscript := t |};
           isProcessing := true;
           messages := messages (app w) ++ [ {| type := prompt; text := t |} ];
           conversationRef := conversationRef (app w) |};
      pending := S (pending w) |},
   [fetch {| Body.text := t;
             Body.conversationId :=
               orUndefined (ConversationRef.id (conversationRef (app w)));
             Body.parentMessageId :=
               orUndefined
                 (ConversationRef.currentMessageId (conversationRef (app w))) |}]).
Proof.
  intros Ht Hch. unfold step.
  destruct (String.eqb_spec t (finalTranscript (hook (app w)))) as [E|_];
    [contradiction|].
  apply truthy_true in Ht.
  unfold perform, finalTranscriptEffect, bind, get, setMessages,
    setIsProcessing, emit. simpl. rewrite Ht. simpl.
  rewrite Nat.add_1_r. reflexivity.
Qed.

(* ------------------------------------------------------------------ *)
(** ** Settlement of the answer request *)

(** C2. When a pending answer request fails (the transport rejects or the
    body does not decode), a response entry with the fixed failure message
    is appended to the transcript, speech output is invoked with that same
    message, [conversationRef] keeps both of its fields, the request is no
    longer pending and the processing flag is down, so that a component
    that is not listening shows the idle mic again. *)
Theorem failed_request_reports_failure :
  forall (w : World) (outcome : FetchOutcome),
    0 < pending w ->
    decoded outcome = Rejected ->
    let w' := fst (step w (FetchSettles outcome)) in
    messages (app w') =
      messages (app w) ++ [ {| type := response; text := failureResponse |} ]
    /\ snd (step w (FetchSettles outcome)) =
         [console_warn; speechSynthesis_cancel;
          speechSynthesis_speak failureResponse]
    /\ conversationRef (app w') = conversationRef (app w)
    /\ isProcessing (app w') = false
    /\ S (pending w') = pending w
    /\ (isListening (hook (app w)) = false -> micIcon (app w') = Mic).
Proof.
  intros [s [|n]] outcome Hp Hd; simpl in Hp; [lia|].
  rewrite (step_settles_rejected s n outcome Hd). simpl.
  repeat split.
  intros Hl. unfold micIcon. simpl. rewrite Hl. reflexivity.
Qed.

Lemma failed_request_reports_failure_witness :
  let w' := fst (step awaiting (FetchSettles Rejected)) in
  messages (app w') =
    messages (app awaiting) ++
      [ {| type := response; text := failureResponse |} ]
  /\ snd (step awaiting (FetchSettles Rejected)) =
       [console_warn; speechSynthesis_cancel;
        speechSynthesis_speak failureResponse]
  /\ conversationRef (app w') = conversationRef (app awaiting)
  /\ isProcessing (app w') = false
  /\ S (pending w') = pending awaiting
  /\ (isListening (hook (app awaiting)) = false -> micIcon (app w') = Mic).
Proof.
  apply (failed_request_reports_failure awaiting Rejected).
  - vm_compute. apply le_n.
  - reflexivity.
Defined.

(** C3. When a pending answer request succeeds with a response carrying
    [answer], [conversationId] and [messageId], [conversationRef] takes the
    two ids of the response, a response entry with exactly the answer text
    is appended, speech output is invoked with that text, and the processing
    flag is down, so that a component that is not listening shows the idle
    mic again. *)
Theorem answered_request_updates_session :
  forall (w : World) (outcome : FetchOutcome)
         (r : CreateChatGPTMessageResponse),
    0 < pending w ->
    decoded outcome = Fulfilled r ->
    let w' := fst (step w (FetchSettles outcome)) in
    conversationRef (app w') =
      {| ConversationRef.id := conversationId r;
         ConversationRef.currentMessageId := messageId r |}
    /\ messages (app w') =
         messages (app w) ++ [ {| type := response; text := answer r |} ]
    /\ snd (step w (FetchSettles outcome)) =
         [speechSynthesis_cancel; speechSynthesis_speak (answer r)]
    /\ isProcessing (app w') = false
    /\ S (pending w') = pending w
    /\ (isListening (hook (app w)) = false -> micIcon (app w') = Mic).
Proof.
  intros [s [|n]] outcome r Hp Hd; simpl in Hp; [lia|].
  rewrite (step_settles_answered s n outcome r Hd). simpl.
  repeat split.
  intros Hl. unfold micIcon. simpl. rewrite Hl. reflexivity.
Qed.

Lemma answered_request_updates_session_witness :
  let w' := fst (step awaiting (FetchSettles (ok sampleAnswer))) in
  conversationRef (app w') =
    {| ConversationRef.id := "c1"; ConversationRef.currentMessageId := "m1" |}
  /\ messages (app w') =
       messages (app awaiting) ++
         [ {| type := response; text := "It's in NYC" |} ]
  /\ snd (step awaiting (FetchSettles (ok sampleAnswer))) =
       [speechSynthesis_cancel; speechSynthesis_speak "It's in NYC"]
  /\ isProcessing (app w') = false
  /\ S (pending w') = pending awaiting
  /\ (isListening (hook (app awaiting)) = false -> micIcon (app w') = Mic).
Proof.
  apply (answered_request_updates_session awaiting (ok sampleAnswer)
           sampleAnswer).
  - vm_compute. apply le_n.
  - reflexivity.
Defined.

(* ------------------------------------------------------------------ *)
(** ** The mic button *)

Lemma world_eta (w : World) : {| app := app w; pending := pending w |} = w.
Proof. destruct w; reflexivity. Qed.

(** C9. A click on the mic button of an idle component first cancels the
    speech output and then starts capture; a click while listening (the
    button being enabled) aborts capture.  Neither click changes the
    component state: no transcript entry is appended and no request is
    issued. *)
Theorem mic_toggle :
  forall w : World,
    browserSupportsSpeechRecognition (hook (app w)) = true ->
    isProcessing (app w) = false ->
    (isListening (hook (app w)) = false ->
       step w MicButtonClick = (w, [speechSynthesis_cancel; startListening]))
    /\ (isListening (hook (app w)) = true ->
          step w MicButtonClick = (w, [abortListening])
          /\ messages (app (fst (step w MicButtonClick))) = messages (app w)).
Proof.
  intros w Hs Hp.
  assert (Hstep : step w MicButtonClick = perform recognizeSpeech w).
  { unfold step, render. rewrite Hs. simpl. rewrite Hp. reflexivity. }
  rewrite Hstep.
  unfold perform, recognizeSpeech, bind, get, emit.
  split; intros Hl; rewrite Hl; simpl; rewrite Nat.add_0_r, world_eta; auto.
Qed.

Lemma mic_toggle_witness :
  step (initialWorld true) MicButtonClick =
    (initialWorld true, [speechSynthesis_cancel; startListening])
  /\ step (after (initialWorld true) [MicButtonClick; HookListening true])
          MicButtonClick =
       (after (initialWorld true) [MicButtonClick; HookListening true],
        [abortListening]).
Proof.
  split.
  - apply (mic_toggle (initialWorld true)); reflexivity.
  - apply (mic_toggle
             (after (initialWorld true) [MicButtonClick; HookListening true]));
      reflexivity.
Defined.

(* ------------------------------------------------------------------ *)
(** ** The effect on [finalTranscript] *)

(** C10. An empty [finalTranscript] is ignored: the effect body leaves the
    component as it is and emits nothing, and delivering the empty value to
    a mounted component appends no entry, issues no request, and keeps the
    transcript, [conversationRef], the processing flag and the number of
    pending requests. *)
Theorem empty_finalTranscript_ignored :
  (forall s : App,
     finalTranscript (hook s) = "" -> finalTranscriptEffect s = (tt, s, []))
  /\ (forall w : World,
        let w' := fst (step w (HookFinalTranscript "")) in
        snd (step w (HookFinalTranscript "")) = []
        /\ messages (app w') = messages (app w)
        /\ conversationRef (app w') = conversationRef (app w)
        /\ isProcessing (app w') = isProcessing (app w)
        /\ pending w' = pending w).
Proof.
  split.
  - intros s H. unfold finalTranscriptEffect, bind, get. simpl.
    rewrite H. reflexivity.
  - intros w. unfold step.
    destruct (String.eqb "" (finalTranscript (hook (app w)))).
    + simpl. auto.
    + unfold perform, finalTranscriptEffect, bind, get. simpl.
      rewrite Nat.add_0_r. auto.
Qed.

Lemma empty_finalTranscript_ignored_witness :
  finalTranscriptEffect (initialApp true) = (tt, initialApp true, []).
Proof.
  apply (proj1 empty_finalTranscript_ignored). reflexivity.
Defined.

(* ------------------------------------------------------------------ *)
(** ** What one event can change *)

(** Case analysis of one step: the world is opened, the event and every
    test the handlers branch on are split. *)
Ltac step_cases w e :=
  destruct w as [[[sup mic tr lis ft] proc ms conv] n];
  destruct e as [ | b | t | t | b | [[st [|r]]|] | index ];
  unfold step, perform, stutter, render, recognizeSpeech,
    finalTranscriptEffect, onSettled, messageOnClick, speak, bind, get,
    emit, ret, setMessages, setIsProcessing, setConversationRef, withHook;
  simpl;
  repeat match goal with
    | |- context [negb ?b] => is_var b; destruct b; simpl
    | |- context [nth_error ?l ?i] =>
        destruct (nth_error l i) as [[? ?]|]; simpl
    | |- context [String.eqb ?a ?b] => destruct (String.eqb_spec a b)
    | |- context [match ?n with O => _ | S _ => _ end] =>
        is_var n; destruct n
    | |- context [if ?b then _ else _] => is_var b; destruct b
    | |- context [truthy ?x] => destruct (truthy x) eqn:?
    end;
  simpl.

Lemma supported_step (w : World) (e : Event) :
  browserSupportsSpeechRecognition (hook (app (fst (step w e)))) =
  browserSupportsSpeechRecognition (hook (app w)).
Proof. step_cases w e; reflexivity. Qed.

Lemma supported_after (w : World) (events : list Event) :
  browserSupportsSpeechRecognition (hook (app (after w events))) =
  browserSupportsSpeechRecognition (hook (app w)).
Proof.
  revert w. induction events as [|e events IH]; intros w.
  - reflexivity.
  - rewrite after_cons, IH. apply supported_step.
Qed.

(** The processing flag is up only while a request is pending, whatever
    the events. *)
Lemma processing_needs_pending_step (w : World) (e : Event) :
  (isProcessing (app w) = true -> 0 < pending w) ->
  isProcessing (app (fst (step w e))) = true -> 0 < pending (fst (step w e)).
Proof.
  step_cases w e; intros H H'; try discriminate;
    try (specialize (H H')); lia.
Qed.

Lemma processing_needs_pending_after (w : World) (events : list Event) :
  (isProcessing (app w) = true -> 0 < pending w) ->
  isProcessing (app (after w events)) = true -> 0 < pending (after w events).
Proof.
  revert w. induction events as [|e events IH]; intros w Hw.
  - exact Hw.
  - rewrite after_cons. apply IH. apply processing_needs_pending_step.
    exact Hw.
Qed.

(** With at most one request outstanding the flag is up exactly while the
    request is pending. *)
Lemma gate_step (w : World) (e : Event) :
  pending w <= 1 ->
  isProcessing (app w) = (0 <? pending w)%nat ->
  pending (fst (step w e)) <= 1 ->
  isProcessing (app (fst (step w e))) = (0 <? pending (fst (step w e)))%nat.
Proof.
  step_cases w e; rewrite ?Nat.add_0_r, ?Nat.add_1_r;
    intros Hw H Hle; try exact H; try reflexivity; try (exfalso; lia).
  all: destruct n; [reflexivity | exfalso; lia].
Qed.

Lemma gate_after (w : World) (events : list Event) :
  pending w <= 1 ->
  isProcessing (app w) = (0 <? pending w)%nat ->
  atMostOnePending w events = true ->
  forall k : nat,
    isProcessing (app (after w (firstn k events))) =
    (0 <? pending (after w (firstn k events)))%nat.
Proof.
  revert w. induction events as [|e events IH]; intros w Hle0 Hw Hone k.
  - destruct k; exact Hw.
  - destruct k as [|k]; [exact Hw|].
    simpl in Hone. apply andb_true_iff in Hone as [Hle Hrest].
    apply Nat.leb_le in Hle.
    simpl firstn. rewrite after_cons.
    apply IH; [exact Hle | apply gate_step; assumption | exact Hrest].
Qed.

(** The prompts in the store grow by one exactly when [finalTranscript]
    takes a new non-empty value. *)
Lemma countPrompts_app (xs ys : list Message) :
  countPrompts (xs ++ ys) = countPrompts xs + countPrompts ys.
Proof. unfold countPrompts. rewrite filter_app, length_app. reflexivity. Qed.

Lemma countPrompts_step (w : World) (e : Event) :
  countPrompts (messages (app (fst (step w e)))) =
  countPrompts (messages (app w))
  + nonEmptyFinalTranscripts (finalTranscript (hook (app w))) [e].
Proof.
  step_cases w e; rewrite ?countPrompts_app; simpl;
    try (destruct (String.eqb_spec t ft); [congruence|]);
    try (destruct (String.eqb_spec "" ft); [congruence|]);
    simpl; repeat match goal with H : truthy _ = _ |- _ => rewrite H end;
    unfold countPrompts; simpl; lia.
Qed.

Lemma finalTranscript_step (w : World) (e : Event) :
  finalTranscript (hook (app (fst (step w e)))) =
  match e with
  | HookFinalTranscript t => t
  | _ => finalTranscript (hook (app w))
  end.
Proof. step_cases w e; try reflexivity; congruence. Qed.

Lemma countPrompts_after (w : World) (events : list Event) :
  countPrompts (messages (app (after w events))) =
  countPrompts (messages (app w))
  + nonEmptyFinalTranscripts (finalTranscript (hook (app w))) events.
Proof.
  revert w. induction events as [|e events IH]; intros w.
  - simpl. rewrite after_nil. lia.
  - rewrite after_cons, IH, countPrompts_step, finalTranscript_step.
    destruct e; simpl; lia.
Qed.

(** Only an answer writes [conversationRef]. *)
Lemma conversationRef_step (w : World) (e : Event) :
  answerArrives e = false ->
  conversationRef (app (fst (step w e))) = conversationRef (app w).
Proof. step_cases w e; intros H; try reflexivity; discriminate. Qed.

Lemma conversationRef_after (w : World) (events : list Event) :
  noAnswer events = true ->
  conversationRef (app (after w events)) = conversationRef (app w).
Proof.
  revert w. induction events as [|e events IH]; intros w H.
  - reflexivity.
  - simpl in H. apply andb_true_iff in H as [He Hrest].
    rewrite after_cons, IH by exact Hrest.
    apply conversationRef_step. now apply negb_true_iff.
Qed.

Lemma conversationId_step (w : World) (e : Event) :
  answerKeepsId e = true ->
  truthy (ConversationRef.id (conversationRef (app w))) = true ->
  truthy (ConversationRef.id (conversationRef (app (fst (step w e))))) = true.
Proof.
  intros Hk Hid. destruct (answerArrives e) eqn:Ha.
  - destruct e as [ | | | | | outcome | ]; try discriminate.
    simpl in Ha, Hk. destruct (decoded outcome) as [r|] eqn:Hd;
      [|discriminate].
    destruct w as [s [|n]]; [exact Hid|].
    rewrite (step_settles_answered s n outcome r Hd). exact Hk.
  - rewrite conversationRef_step by exact Ha. exact Hid.
Qed.

(* ------------------------------------------------------------------ *)
(** ** The mic button and the pending request *)

(** C1, as amended.  At every point of every run the main view is rendered
    exactly when the platform is supported (otherwise the fallback notice
    is shown and there is no button), and its mic button is disabled only
    while an answer request is pending.  In every run in which at most one
    answer request is outstanding at a time, the button is disabled exactly
    while that request is pending: from the moment it is issued until it
    settles. *)
Theorem mic_disabled_while_pending :
  forall (supported : bool) (events : list Event) (k : nat),
    let w := after (initialWorld supported) (firstn k events) in
    match render (app w) with
    | UnsupportedNotice => supported = false
    | MainUI v =>
        supported = true
        /\ (micButtonDisabled v = true -> 0 < pending w)
        /\ (atMostOnePending (initialWorld supported) events = true ->
            micButtonDisabled v = (0 <? pending w)%nat)
    end.
Proof.
  intros supported events k w.
  assert (Hs : browserSupportsSpeechRecognition (hook (app w)) = supported)
    by (unfold w; rewrite supported_after; reflexivity).
  assert (Hn : isProcessing (app w) = true -> 0 < pending w).
  { unfold w. apply processing_needs_pending_after. discriminate. }
  assert (Hg : atMostOnePending (initialWorld supported) events = true ->
               isProcessing (app w) = (0 <? pending w)%nat).
  { intros Hone. unfold w. apply gate_after; auto. }
  unfold render. rewrite Hs. destruct supported; simpl; auto.
Qed.

Lemma mic_disabled_while_pending_witness :
  exists v : MainView,
    render (app (after (initialWorld true) (firstn 4 oneTurn))) = MainUI v
    /\ micButtonDisabled v = true
    /\ 0 < pending (after (initialWorld true) (firstn 4 oneTurn)).
Proof.
  pose proof (mic_disabled_while_pending true oneTurn 4) as H.
  cbv zeta in H.
  destruct (render (app (after (initialWorld true) (firstn 4 oneTurn))))
    as [|v] eqn:E; [discriminate H|].
  destruct H as (_ & Hpending & Hexact).
  exists v. split; [reflexivity|].
  assert (Hd : micButtonDisabled v = true).
  { rewrite Hexact by reflexivity. reflexivity. }
  split; [exact Hd | exact (Hpending Hd)].
Defined.

(** C1, counterexample.  When a second transcript is finalized before the
    first request settles, the first settlement re-enables the mic button
    although the second request is still pending. *)
Lemma overlapping_requests_enable_mic :
  let w := after (initialWorld true) overlappingRequests in
  pending w = 1
  /\ exists v, render (app w) = MainUI v /\ micButtonDisabled v = false.
Proof.
  split; [reflexivity|]. eexists. split; reflexivity.
Qed.

(* ------------------------------------------------------------------ *)
(** ** Prompts in the transcript *)

(** C5, as amended.  After any sequence of events the number of prompt
    entries is one, for the prompt the transcript is seeded with, plus the
    number of times [finalTranscript] took a new non-empty value, whether or
    not the component was listening at that time. *)
Theorem prompts_count :
  forall (supported : bool) (events : list Event),
    countPrompts (messages (app (after (initialWorld supported) events))) =
    1 + nonEmptyFinalTranscripts "" events.
Proof.
  intros supported events. rewrite countPrompts_after. reflexivity.
Qed.

(** C5, counterexample.  Before any event the store already holds one
    prompt, and after one transcript finalized while listening it holds
    two. *)
Lemma prompts_exceed_finalized_events :
  countPrompts (messages (app (after (initialWorld true) []))) = 1
  /\ finalizedWhileListening (initialWorld true) [] = 0
  /\ countPrompts (messages (app (after (initialWorld true)
       [MicButtonClick; HookListening true; HookFinalTranscript "hello"]))) = 2
  /\ finalizedWhileListening (initialWorld true)
       [MicButtonClick; HookListening true; HookFinalTranscript "hello"] = 1.
Proof. repeat split. Qed.

(* ------------------------------------------------------------------ *)
(** ** Conversation identity *)

(** C8, as amended.  Once [conversationRef.id] is non-empty it stays
    non-empty through every sequence of events in which each answered
    request carries a non-empty [conversationId]; failed requests and all
    other events never touch it. *)
Theorem conversationId_kept :
  forall (w : World) (events : list Event),
    answersKeepId events = true ->
    ConversationRef.id (conversationRef (app w)) <> "" ->
    ConversationRef.id (conversationRef (app (after w events))) <> "".
Proof.
  intros w events. revert w.
  induction events as [|e events IH]; intros w Hk Hid.
  - exact Hid.
  - simpl in Hk. apply andb_true_iff in Hk as [He Hrest].
    rewrite after_cons. apply IH; [exact Hrest|].
    apply truthy_true. apply conversationId_step; [exact He|].
    apply truthy_true. exact Hid.
Qed.

Lemma conversationId_kept_witness :
  ConversationRef.id (conversationRef (app
    (after (after (initialWorld true) oneTurn)
       [HookFinalTranscript "again"; FetchSettles Rejected]))) <> "".
Proof.
  apply (conversationId_kept (after (initialWorld true) oneTurn)).
  - reflexivity.
  - discriminate.
Defined.

(** C8, counterexample.  An answer whose [conversationId] is the empty
    string overwrites an id that was set. *)
Lemma empty_conversationId_clears :
  let w1 := after (initialWorld true) oneTurn in
  let w2 := after w1
              [HookFinalTranscript "again";
               FetchSettles (ok {| answer := "Sure"; conversationId := "";
                                   messageId := "m2" |})] in
  ConversationRef.id (conversationRef (app w1)) = "c1"
  /\ ConversationRef.id (conversationRef (app w2)) = "".
Proof. split; reflexivity. Qed.

(** C4. Both fields of [conversationRef] start empty, and as long as no
    request has been answered a newly finalized transcript is sent with
    [conversationId] and [parentMessageId] absent.  After an answered
    request [conversationRef.id] is the [conversationId] of the response,
    and the next request, issued after any events that bring no further
    answer, carries the ids of that response: the field is the returned
    value itself when that value is non-empty (an empty id is sent as an
    absent field). *)
Theorem conversation_threading :
  forall (supported : bool) (before : list Event) (t0 : string)
         (w : World) (outcome : FetchOutcome)
         (r : CreateChatGPTMessageResponse)
         (between : list Event) (t1 : string),
    let w0 := after (initialWorld supported) before in
    let w1 := fst (step w (FetchSettles outcome)) in
    let w2 := after w1 between in
    noAnswer before = true ->
    t0 <> "" -> t0 <> finalTranscript (hook (app w0)) ->
    0 < pending w ->
    decoded outcome = Fulfilled r ->
    noAnswer between = true ->
    t1 <> "" -> t1 <> finalTranscript (hook (app w2)) ->
    conversationRef (app (initialWorld supported)) =
      {| ConversationRef.id := ""; ConversationRef.currentMessageId := "" |}
    /\ snd (step w0 (HookFinalTranscript t0)) =
         [fetch {| Body.text := t0;
                   Body.conversationId := None;
                   Body.parentMessageId := None |}]
    /\ ConversationRef.id (conversationRef (app w1)) = conversationId r
    /\ snd (step w2 (HookFinalTranscript t1)) =
         [fetch {| Body.text := t1;
                   Body.conversationId := orUndefined (conversationId r);
                   Body.parentMessageId := orUndefined (messageId r) |}]
    /\ (conversationId r <> "" ->
        exists body,
          snd (step w2 (HookFinalTranscript t1)) = [fetch body]
          /\ Body.conversationId body = Some (conversationId r)).
Proof.
  intros supported before t0 w outcome r between t1 w0 w1 w2
    Hbefore Ht0 Hch0 Hp Hd Hbetween Ht1 Hch1.
  assert (Hw1 : conversationRef (app w1) =
                {| ConversationRef.id := conversationId r;
                   ConversationRef.currentMessageId := messageId r |}).
  { unfold w1. destruct w as [s [|n]]; simpl in Hp; [lia|].
    rewrite (step_settles_answered s n outcome r Hd). reflexivity. }
  assert (Hw2 : conversationRef (app w2) = conversationRef (app w1))
    by (apply conversationRef_after; exact Hbetween).
  assert (Hw0 : conversationRef (app w0) =
                conversationRef (app (initialWorld supported)))
    by (apply conversationRef_after; exact Hbefore).
  assert (Hreq : snd (step w2 (HookFinalTranscript t1)) =
            [fetch {| Body.text := t1;
                      Body.conversationId := orUndefined (conversationId r);
                      Body.parentMessageId := orUndefined (messageId r) |}]).
  { rewrite (step_finalTranscript_issues w2 t1 Ht1 Hch1). simpl.
    rewrite Hw2, Hw1. reflexivity. }
  split; [reflexivity|]. split.
  { rewrite (step_finalTranscript_issues w0 t0 Ht0 Hch0). simpl.
    rewrite Hw0. reflexivity. }
  split; [rewrite Hw1; reflexivity|]. split; [exact Hreq|].
  intros Hne. eexists. split; [exact Hreq|]. simpl.
  unfold orUndefined. apply truthy_true in Hne. rewrite Hne. reflexivity.
Qed.

Lemma conversation_threading_witness :
  snd (step (initialWorld true) (HookFinalTranscript "hello")) =
    [fetch {| Body.text := "hello";
              Body.conversationId := None;
              Body.parentMessageId := None |}]
  /\ snd (step (after (fst (step awaiting (FetchSettles (ok sampleAnswer))))
                  [MicButtonClick; HookListening true])
               (HookFinalTranscript "And how tall is it?")) =
       [fetch {| Body.text := "And how tall is it?";
                 Body.conversationId := Some "c1";
                 Body.parentMessageId := Some "m1" |}].
Proof.
  pose proof (conversation_threading true [] "hello" awaiting
                (ok sampleAnswer) sampleAnswer
                [MicButtonClick; HookListening true] "And how tall is it?")
    as H.
  simpl in H.
  destruct H as (_ & H0 & _ & H1 & _);
    try reflexivity; try discriminate; try (vm_compute; apply le_n).
  split; [exact H0 | exact H1].
Defined.

(* ------------------------------------------------------------------ *)
(** ** Error statuses *)

(** The status of the response plays no part in the settlement. *)
Lemma status_ignored (w : World) (st st' : Z) (b : ResponseBody) :
  step w (FetchSettles (Fulfilled {| status := st; responseBody := b |})) =
  step w (FetchSettles (Fulfilled {| status := st'; responseBody := b |})).
Proof. reflexivity. Qed.

(** C6, the code at a failing input.  A response with status 500 whose
    body parses as JSON is handled as an answer: its text is appended and
    spoken in place of the failure message, and [conversationRef] is
    overwritten from it. *)
Theorem server_error_taken_as_answer :
  let w' := fst (step awaiting (FetchSettles serverError)) in
  messages (app w') =
    messages (app awaiting) ++
      [ {| type := response; text := "Internal Server Error" |} ]
  /\ snd (step awaiting (FetchSettles serverError)) =
       [speechSynthesis_cancel; speechSynthesis_speak "Internal Server Error"]
  /\ ~ In (speechSynthesis_speak failureResponse)
          (snd (step awaiting (FetchSettles serverError)))
  /\ conversationRef (app w') =
       {| ConversationRef.id := ""; ConversationRef.currentMessageId := "" |}.
Proof.
  repeat split. simpl. intros [H|[H|[]]]; discriminate.
Qed.

(* ------------------------------------------------------------------ *)
(** ** Active entries *)

Lemma nth_error_mapi {A B} (f : A -> Z -> B) (l : list A) :
  forall (start : Z) (index : nat),
    nth_error (mapi f start l) index =
    option_map (fun a => f a (start + Z.of_nat index)%Z) (nth_error l index).
Proof.
  induction l as [|a l IH]; intros start index.
  - destruct index; reflexivity.
  - destruct index as [|index].
    + simpl. rewrite Z.add_0_r. reflexivity.
    + simpl nth_error. rewrite IH. destruct (nth_error l index); simpl;
        [|reflexivity].
      do 2 f_equal. lia.
Qed.

Lemma getIsActive_window (lis : bool) (n index : nat) (m : Message) :
  getIsActive lis (Z.of_nat n) (type m) (Z.of_nat index) =
  negb lis &&
  ((S index =? n)%nat || (isPrompt m && (S (S index) =? n)%nat)).
Proof.
  unfold getIsActive, isPrompt. destruct lis; [reflexivity|].
  cbn [negb andb].
  destruct (Nat.eqb_spec (S index) n) as [E1|E1];
    destruct (Nat.eqb_spec (S (S index)) n) as [E2|E2];
    destruct (Z.eqb_spec (Z.of_nat index) (Z.of_nat n - 1)) as [Z1|Z1];
    destruct (Z.eqb_spec (Z.of_nat index) (Z.of_nat n - 2)) as [Z2|Z2];
    destruct (type m); cbn [orb andb]; try reflexivity; exfalso; lia.
Qed.

(** C7, as amended.  On a supported platform the main view shows every
    stored entry in order; while not listening an entry is active exactly
    when it is the last entry, or it is a prompt and the last but one; while
    listening no stored entry is active and the live transcript is shown as
    an extra line, which is absent otherwise. *)
Theorem active_entries :
  forall s : App,
    browserSupportsSpeechRecognition (hook s) = true ->
    exists v : MainView,
      render s = MainUI v
      /\ liveMessage v =
           (if isListening (hook s) then Some (transcript (hook s)) else None)
      /\ forall (index : nat) (m : Message),
           nth_error (messages s) index = Some m ->
           nth_error (renderedMessages v) index =
           Some (m, negb (isListening (hook s)) &&
                    ((S index =? length (messages s))%nat
                     || (isPrompt m &&
                         (S (S index) =? length (messages s))%nat))).
Proof.
  intros s Hs. unfold render. rewrite Hs. simpl.
  eexists. split; [reflexivity|]. split; [reflexivity|].
  intros index m Hm. simpl.
  rewrite nth_error_mapi, Hm. simpl.
  rewrite getIsActive_window. reflexivity.
Qed.

Lemma active_entries_witness :
  exists v : MainView,
    render (app awaiting) = MainUI v
    /\ liveMessage v = None
    /\ nth_error (renderedMessages v) 2 =
         Some ({| type := prompt;
                  text := "Where is the Empire State Building?" |}, true).
Proof.
  destruct (active_entries (app awaiting)) as (v & Hv & Hlive & Hact);
    [reflexivity|].
  exists v. split; [exact Hv|]. split; [exact Hlive|].
  apply (Hact 2). reflexivity.
Defined.

(** C7, counterexample.  While a request is awaited the most recent
    response entry is not active; and after the answer arrived, the second
    of the two most recent prompts before it is not active either. *)
Lemma recent_turn_entries_not_all_active :
  let s1 := app awaiting in
  let s2 := app (after (initialWorld true) oneTurn) in
  isListening (hook s1) = false
  /\ lastResponse 0 (messages s1) = Some 1
  /\ activeAt s1 1 = Some false
  /\ isListening (hook s2) = false
  /\ recentTurnEntries (messages s2) = [3; 2; 0]
  /\ activeAt s2 0 = Some false.
Proof. repeat split. Qed.

(* ------------------------------------------------------------------ *)
(** ** The kinds of step *)

(** A click on an entry speaks the text of that entry, if the entry is on
    screen, and does nothing else. *)
Lemma step_messageClick (w : World) (index : nat) :
  step w (MessageClick index) =
  if browserSupportsSpeechRecognition (hook (app w)) then
    match nth_error (messages (app w)) index with
    | Some m => (w, [speechSynthesis_cancel; speechSynthesis_speak (text m)])
    | None => (w, [])
    end
  else (w, []).
Proof.
  unfold step, render.
  destruct (browserSupportsSpeechRecognition (hook (app w))); simpl;
    [|reflexivity].
  rewrite nth_error_mapi.
  destruct (nth_error (messages (app w)) index) as [m|]; simpl;
    [|reflexivity].
  unfold perform, messageOnClick, speak, bind, emit. simpl.
  rewrite Nat.add_0_r, world_eta. reflexivity.
Qed.

(** Every event falls under one of the four kinds. *)
Lemma step_kind (w : World) (e : Event) : StepKind w e.
Proof.
  destruct e as [ | b | t | t | b | outcome | index ].
  - (* click *)
    destruct w as [[[sup mic tr lis ft] proc ms conv] n].
    apply Quiet;
      try (destruct sup, proc, lis; cbv; rewrite ?Nat.add_0_r; reflexivity).
    destruct sup; [|left; reflexivity].
    destruct proc; [left; reflexivity|].
    right. repeat split.
    + destruct lis; cbv; rewrite Nat.add_0_r; reflexivity.
    + destruct lis; [right|left]; split; reflexivity.
  - apply Quiet; try reflexivity. left; reflexivity.
  - apply Quiet; try reflexivity. left; reflexivity.
  - (* finalTranscript *)
    destruct (String.eqb_spec t (finalTranscript (hook (app w)))) as [E|N].
    + assert (H : step w (HookFinalTranscript t) = (w, [])).
      { unfold step. rewrite (proj2 (String.eqb_eq _ _) E). reflexivity. }
      apply Quiet; rewrite H; auto.
    + destruct t as [|c t].
      * assert (H : exists s', step w (HookFinalTranscript "") =
                      ({| app := s'; pending := pending w |}, [])
                      /\ messages s' = messages (app w)
                      /\ isProcessing s' = isProcessing (app w)
                      /\ conversationRef s' = conversationRef (app w)).
        { unfold step. rewrite (proj2 (String.eqb_neq _ _) N).
          unfold perform, finalTranscriptEffect, bind, get. simpl.
          rewrite Nat.add_0_r. eexists. split; [reflexivity|]. auto. }
        destruct H as (s' & H & Hm & Hp & Hc).
        apply Quiet; rewrite H; auto.
      * apply (Issues w _ (String c t)); try reflexivity; try discriminate;
          rewrite (step_finalTranscript_issues w (String c t));
          try discriminate; try exact N; reflexivity.
  - apply Quiet; try reflexivity. left; reflexivity.
  - (* settlement *)
    destruct w as [s [|n]].
    + apply Quiet; try reflexivity. left; reflexivity.
    + destruct (decoded outcome) as [r|] eqn:Hd.
      * apply (Settles _ _ outcome (answer r)); try reflexivity;
          rewrite (step_settles_answered s n outcome r Hd); auto.
      * apply (Settles _ _ outcome failureResponse); try reflexivity;
          rewrite (step_settles_rejected s n outcome Hd); auto.
  - (* an entry is selected *)
    pose proof (step_messageClick w index) as H.
    destruct (browserSupportsSpeechRecognition (hook (app w))) eqn:Hs.
    + destruct (nth_error (messages (app w)) index) as [m|] eqn:Hm.
      * apply (Replays _ _ index m); try reflexivity; try assumption;
          rewrite H; reflexivity.
      * apply Quiet; rewrite H; auto.
    + apply Quiet; rewrite H; auto.
Qed.

Lemma emitted_cons (w : World) (e : Event) (events : list Event) :
  emitted w (e :: events) = snd (step w e) ++ emitted (fst (step w e)) events.
Proof.
  unfold emitted. simpl.
  destruct (step w e) as [w1 fx1]. simpl.
  destruct (run w1 events) as [w2 fx2]. reflexivity.
Qed.

Lemma countResponses_app (xs ys : list Message) :
  countResponses (xs ++ ys) = countResponses xs + countResponses ys.
Proof. unfold countResponses. rewrite filter_app, length_app. reflexivity. Qed.

Lemma lastMessage_snoc (ms : list Message) (m : Message) :
  lastMessage (ms ++ [m]) = Some m.
Proof. unfold lastMessage. rewrite rev_unit. reflexivity. Qed.

(* ------------------------------------------------------------------ *)
(** ** The transcript only grows *)

(** X1. No event removes or rewrites a stored entry: after any run the
    transcript is the transcript before it followed by the entries the run
    appended, at most one per event. *)
Theorem transcript_append_only :
  forall (w : World) (events : list Event),
    exists added : list Message,
      messages (app (after w events)) = messages (app w) ++ added
      /\ length added <= length events.
Proof.
  intros w events. revert w.
  induction events as [|e events IH]; intros w.
  - exists []. rewrite after_nil, app_nil_r. auto.
  - rewrite after_cons. destruct (IH (fst (step w e))) as (added & Ha & Hl).
    destruct (step_kind w e)
      as [Hm _ _ _ _ | t _ _ Hm _ _ _ _ | o u _ _ Hm _ _ | i m _ _ _ Hw _].
    + exists added. rewrite Ha, Hm. simpl. split; [reflexivity | lia].
    + exists ({| type := prompt; text := t |} :: added).
      rewrite Ha, Hm, <- app_assoc. simpl. split; [reflexivity | lia].
    + exists ({| type := response; text := u |} :: added).
      rewrite Ha, Hm, <- app_assoc. simpl. split; [reflexivity | lia].
    + exists added. rewrite Ha, Hw. simpl. split; [reflexivity | lia].
Qed.

(** Per step: the counts of prompts and responses follow the requests
    issued, the utterances spoken and the entries replayed. *)
Lemma counts_step (w : World) (e : Event) :
  countPrompts (messages (app (fst (step w e)))) =
    countPrompts (messages (app w)) + length (filter isFetch (snd (step w e)))
  /\ countResponses (messages (app (fst (step w e)))) + replayed w e =
       countResponses (messages (app w))
       + length (filter isSpeak (snd (step w e)))
  /\ pending (fst (step w e))
       + countResponses (messages (app (fst (step w e)))) =
       pending w + countResponses (messages (app w))
       + length (filter isFetch (snd (step w e))).
Proof.
  destruct (step_kind w e)
    as [Hm Hp _ _ Hfx | t He _ Hm Hp _ _ Hfx | o u He Hp Hm _ Hfx
        | i m He Hs Hi Hw Hfx].
  - rewrite Hm, Hp.
    assert (Hr : replayed w e = 0).
    { destruct e; try reflexivity. simpl.
      rewrite step_messageClick in Hfx.
      destruct (browserSupportsSpeechRecognition (hook (app w)));
        [|reflexivity].
      destruct (nth_error (messages (app w)) index); [|reflexivity].
      simpl in Hfx. destruct Hfx as [Hfx | (Hfx & _)]; discriminate. }
    rewrite Hr.
    destruct Hfx as [-> | (_ & _ & _ & _ & [[_ ->] | [_ ->]])]; simpl; lia.
  - rewrite Hm, Hp, Hfx, countPrompts_app, countResponses_app. subst e.
    unfold countPrompts, countResponses. simpl. lia.
  - rewrite Hm, Hp, countPrompts_app, countResponses_app. subst e.
    destruct Hfx as [-> | ->]; unfold countPrompts, countResponses; simpl; lia.
  - rewrite Hw, Hfx. subst e. simpl. rewrite Hs, Hi. simpl. lia.
Qed.

Lemma counts_after (w : World) (events : list Event) :
  countPrompts (messages (app (after w events))) =
    countPrompts (messages (app w))
    + length (filter isFetch (emitted w events))
  /\ countResponses (messages (app (after w events))) + replays w events =
       countResponses (messages (app w))
       + length (filter isSpeak (emitted w events))
  /\ pending (after w events) + countResponses (messages (app (after w events)))
     = pending w + countResponses (messages (app w))
       + length (filter isFetch (emitted w events)).
Proof.
  revert w. induction events as [|e events IH]; intros w.
  - rewrite after_nil. unfold emitted. simpl. lia.
  - rewrite after_cons, emitted_cons, !filter_app, !length_app.
    cbn [replays].
    destruct (IH (fst (step w e))) as (H1 & H2 & H3).
    destruct (counts_step w e) as (S1 & S2 & S3). lia.
Qed.

(** X2. In every state a mounted component can reach, every prompt of the
    transcript is either answered by a response entry or belongs to a
    request that is still pending: prompts = responses + pending. *)
Theorem prompts_answered_or_pending :
  forall (supported : bool) (events : list Event),
    let w := after (initialWorld supported) events in
    countPrompts (messages (app w)) =
    countResponses (messages (app w)) + pending w.
Proof.
  intros supported events w.
  destruct (counts_after (initialWorld supported) events) as (H1 & H2 & H3).
  fold w in H1, H2, H3. rewrite H1. simpl in *. lia.
Qed.

(** X3. Over any run, the requests issued are exactly the prompts that were
    appended; the utterances spoken are exactly the responses that were
    appended plus the stored entries that were replayed by a click; and
    every issued request has either produced one response entry or is
    still pending. *)
Theorem requests_and_speech_accounting :
  forall (w : World) (events : list Event),
    let fx := emitted w events in
    let w' := after w events in
    countPrompts (messages (app w')) =
      countPrompts (messages (app w)) + length (filter isFetch fx)
    /\ countResponses (messages (app w')) + replays w events =
         countResponses (messages (app w)) + length (filter isSpeak fx)
    /\ pending w' + countResponses (messages (app w')) =
         pending w + countResponses (messages (app w))
         + length (filter isFetch fx).
Proof.
  intros w events. revert w.
  induction events as [|e events IH]; intros w; cbv zeta in *.
  - rewrite after_nil. unfold emitted. simpl. lia.
  - rewrite after_cons, emitted_cons, !filter_app, !length_app.
    cbn [replays].
    destruct (IH (fst (step w e))) as (H1 & H2 & H3).
    destruct (counts_step w e) as (S1 & S2 & S3). lia.
Qed.

(* ------------------------------------------------------------------ *)
(** ** Speech output and capture *)

Lemma cancelFirst_any_prev (fx : list Effect) :
  cancelFirst None fx = true -> forall prev, cancelFirst prev fx = true.
Proof.
  destruct fx as [|e fx]; [reflexivity|].
  simpl. intros H prev. apply andb_true_iff in H as [He Hrest].
  rewrite Hrest. destruct e; try reflexivity; discriminate.
Qed.

Lemma cancelFirst_app (fx1 fx2 : list Effect) :
  forall prev,
    cancelFirst prev fx1 = true ->
    cancelFirst None fx2 = true ->
    cancelFirst prev (fx1 ++ fx2) = true.
Proof.
  induction fx1 as [|e fx1 IH]; intros prev H1 H2.
  - simpl. apply cancelFirst_any_prev. exact H2.
  - simpl in *. apply andb_true_iff in H1 as [He Hrest].
    rewrite He. simpl. apply IH; assumption.
Qed.

Lemma cancelFirst_step (w : World) (e : Event) :
  cancelFirst None (snd (step w e)) = true.
Proof.
  destruct (step_kind w e)
    as [_ _ _ _ Hfx | t _ _ _ _ _ _ Hfx | o u _ _ _ _ Hfx | i m _ _ _ _ Hfx].
  - destruct Hfx as [-> | (_ & _ & _ & _ & [[_ ->] | [_ ->]])]; reflexivity.
  - rewrite Hfx. reflexivity.
  - destruct Hfx as [-> | ->]; reflexivity.
  - rewrite Hfx. reflexivity.
Qed.

(** X4. Whatever happens, the component never speaks and never starts
    capture without cancelling the speech output directly before: in the
    effects of every run each [speechSynthesis.speak] and each
    [startListening] comes right after a [speechSynthesis.cancel]. *)
Theorem speech_cancelled_first :
  forall (w : World) (events : list Event),
    cancelFirst None (emitted w events) = true.
Proof.
  intros w events. revert w.
  induction events as [|e events IH]; intros w.
  - reflexivity.
  - rewrite emitted_cons. apply cancelFirst_app; [apply cancelFirst_step|].
    apply IH.
Qed.

(** X5. What is spoken is what is shown: whenever an event makes the
    component speak a text, exactly one utterance is spoken, and either the
    event settles a pending request, the entry it has just appended is the
    response with that text and the processing flag is down; or the event
    is a click on a stored entry, the text is the text of that entry and
    the component is left as it was. *)
Theorem spoken_text_is_shown :
  forall (w : World) (e : Event) (u : string),
    In (speechSynthesis_speak u) (snd (step w e)) ->
    filter isSpeak (snd (step w e)) = [speechSynthesis_speak u]
    /\ ((exists outcome,
           e = FetchSettles outcome
           /\ 0 < pending w
           /\ lastMessage (messages (app (fst (step w e)))) =
                Some {| type := response; text := u |}
           /\ isProcessing (app (fst (step w e))) = false)
        \/ (exists index m,
              e = MessageClick index
              /\ nth_error (messages (app w)) index = Some m
              /\ text m = u
              /\ fst (step w e) = w)).
Proof.
  intros w e u Hin.
  destruct (step_kind w e)
    as [_ _ _ _ Hfx | t _ _ _ _ _ _ Hfx | o u' He Hp Hm Hproc Hfx
        | i m He _ Hi Hw Hfx].
  - exfalso.
    destruct Hfx as [H | (_ & _ & _ & _ & [[_ H] | [_ H]])];
      rewrite H in Hin; simpl in Hin; intuition discriminate.
  - exfalso. rewrite Hfx in Hin. simpl in Hin. intuition discriminate.
  - assert (Hu : u' = u).
    { destruct Hfx as [H | H]; rewrite H in Hin; simpl in Hin;
        intuition (try discriminate); congruence. }
    subst u'. split.
    { destruct Hfx as [-> | ->]; reflexivity. }
    left. exists o. rewrite Hm, lastMessage_snoc.
    split; [exact He|]. split; [lia|]. split; [reflexivity | exact Hproc].
  - rewrite Hfx in Hin |- *. simpl in Hin.
    destruct Hin as [Hin | [Hin | []]]; [discriminate|].
    injection Hin as Hu. rewrite Hu. split; [reflexivity|].
    right. exists i, m. auto.
Qed.

Lemma spoken_text_is_shown_witness :
  filter isSpeak (snd (step awaiting (MessageClick 0))) =
    [speechSynthesis_speak "Where is the Empire State Building?"]
  /\ filter isSpeak (snd (step awaiting (FetchSettles Rejected))) =
       [speechSynthesis_speak failureResponse].
Proof.
  split.
  - apply (spoken_text_is_shown awaiting (MessageClick 0)
             "Where is the Empire State Building?").
    simpl. right. left. reflexivity.
  - apply (spoken_text_is_shown awaiting (FetchSettles Rejected)
             failureResponse).
    simpl. right. right. left. reflexivity.
Defined.



(** X7. Capture is driven by the enabled mic button only: an event starts
    or aborts listening only if it is a click on a supported platform while
    no request is being processed; it starts listening only when the hook
    reports not listening and aborts only when it reports listening; and
    such a click changes nothing in the component. *)
Theorem capture_only_from_enabled_button :
  forall (w : World) (e : Event) (c : Effect),
    In c (snd (step w e)) ->
    isCapture c = true ->
    e = MicButtonClick
    /\ browserSupportsSpeechRecognition (hook (app w)) = true
    /\ isProcessing (app w) = false
    /\ isListening (hook (app w)) =
         (match c with abortListening => true | _ => false end)
    /\ fst (step w e) = w.
Proof.
  intros w e c Hin Hc.
  destruct (step_kind w e)
    as [_ _ _ _ Hfx | t _ _ _ _ _ _ Hfx | o u _ _ _ _ Hfx
        | i m _ _ _ _ Hfx].
  - destruct Hfx as [H | (He & Hs & Hp & Hw & [[Hl H] | [Hl H]])].
    + rewrite H in Hin. destruct Hin.
    + rewrite H in Hin. simpl in Hin.
      destruct Hin as [<- | [<- | []]]; [discriminate|]. auto.
    + rewrite H in Hin. simpl in Hin. destruct Hin as [<- | []]. auto.
  - exfalso. rewrite Hfx in Hin. simpl in Hin.
    destruct Hin as [<- | []]. discriminate.
  - exfalso. destruct Hfx as [H | H]; rewrite H in Hin; simpl in Hin;
      repeat (destruct Hin as [<- | Hin]; [discriminate|]); destruct Hin.
  - exfalso. rewrite Hfx in Hin. simpl in Hin.
    repeat (destruct Hin as [<- | Hin]; [discriminate|]). destruct Hin.
Qed.

Lemma capture_only_from_enabled_button_witness :
  isListening (hook (app (initialWorld true))) = false
  /\ fst (step (initialWorld true) MicButtonClick) = initialWorld true.
Proof.
  destruct (capture_only_from_enabled_button (initialWorld true)
              MicButtonClick startListening) as (_ & _ & _ & Hl & Hw).
  - simpl. right. left. reflexivity.
  - reflexivity.
  - split; [exact Hl | exact Hw].
Defined.

Lemma isListening_step (w : World) (e : Event) :
  isListening (hook (app (fst (step w e)))) =
  match e with
  | HookListening b => b
  | _ => isListening (hook (app w))
  end.
Proof. step_cases w e; reflexivity. Qed.

(** X8. A request being processed blocks the mic button, and its
    settlement, whatever the outcome, gives the button back: on a supported
    platform, while the processing flag is up a click does nothing at all,
    and right after the pending request settles a click of a component that
    is not listening cancels the speech output and starts listening. *)
Theorem button_blocked_until_settlement :
  forall (w : World) (outcome : FetchOutcome),
    browserSupportsSpeechRecognition (hook (app w)) = true ->
    isListening (hook (app w)) = false ->
    isProcessing (app w) = true ->
    0 < pending w ->
    step w MicButtonClick = (w, [])
    /\ snd (step (fst (step w (FetchSettles outcome))) MicButtonClick) =
         [speechSynthesis_cancel; startListening].
Proof.
  intros w outcome Hs Hl Hp Hn. split.
  - unfold step, render. rewrite Hs, Hp. reflexivity.
  - pose proof (supported_step w (FetchSettles outcome)) as Hs'.
    assert (Hl' : isListening (hook (app (fst (step w (FetchSettles outcome)))))
                  = false) by (rewrite isListening_step; exact Hl).
    rewrite Hs in Hs'.
    assert (Hp' : isProcessing (app (fst (step w (FetchSettles outcome))))
                  = false).
    { destruct (step_kind w (FetchSettles outcome))
        as [_ Hq _ _ _ | t He _ _ _ _ _ _ | o u _ _ _ Hproc _
            | i m He _ _ _ _];
        [|discriminate He|exact Hproc|discriminate He].
      exfalso. destruct w as [s [|n]]; simpl in Hn; [lia|].
      destruct (decoded outcome) as [r|] eqn:Hd.
      - rewrite (step_settles_answered s n outcome r Hd) in Hq.
        simpl in Hq. lia.
      - rewrite (step_settles_rejected s n outcome Hd) in Hq.
        simpl in Hq. lia. }
    remember (fst (step w (FetchSettles outcome))) as w1.
    unfold step, render, perform, recognizeSpeech, bind, get, emit.
    rewrite Hs', Hp'. simpl. rewrite Hl'. reflexivity.
Qed.

Lemma button_blocked_until_settlement_witness :
  step awaiting MicButtonClick = (awaiting, [])
  /\ snd (step (fst (step awaiting (FetchSettles Rejected))) MicButtonClick) =
       [speechSynthesis_cancel; startListening].
Proof.
  apply (button_blocked_until_settlement awaiting Rejected);
    try reflexivity.
  vm_compute. apply le_n.
Defined.

(** X9. On a platform without speech recognition the component never
    touches the capture engine: no run emits [startListening] or
    [abortListening]. *)
Theorem unsupported_never_captures :
  forall (w : World) (events : list Event),
    browserSupportsSpeechRecognition (hook (app w)) = false ->
    filter isCapture (emitted w events) = [].
Proof.
  intros w events. revert w.
  induction events as [|e events IH]; intros w Hs.
  - reflexivity.
  - rewrite emitted_cons, filter_app.
    rewrite IH by (rewrite supported_step; exact Hs).
    rewrite app_nil_r.
    destruct (step_kind w e)
      as [_ _ _ _ Hfx | t _ _ _ _ _ _ Hfx | o u _ _ _ _ Hfx
          | i m _ Hs' _ _ _].
    + destruct Hfx as [-> | (_ & Hs' & _)]; [reflexivity | congruence].
    + rewrite Hfx. reflexivity.
    + destruct Hfx as [-> | ->]; reflexivity.
    + congruence.
Qed.

Lemma unsupported_never_captures_witness :
  filter isCapture
    (emitted (initialWorld false)
       [MicButtonClick; HookFinalTranscript "hello"; MicButtonClick]) = [].
Proof.
  apply (unsupported_never_captures (initialWorld false)). reflexivity.
Defined.

(* ------------------------------------------------------------------ *)
(** ** The conversation ids *)

(** X11. [conversationRef] always holds the two ids of the answer handled
    last, both taken from the same response; as long as no answer has been
    handled it keeps the value it had. *)
Theorem conversationRef_is_last_answer :
  forall (w : World) (events : list Event),
    conversationRef (app (after w events)) =
    match lastHandledAnswer w events with
    | Some r => {| ConversationRef.id := conversationId r;
                   ConversationRef.currentMessageId := messageId r |}
    | None => conversationRef (app w)
    end.
Proof.
  intros w events. revert w.
  induction events as [|e events IH]; intros w.
  - reflexivity.
  - rewrite after_cons, IH. simpl.
    destruct (lastHandledAnswer (fst (step w e)) events) as [r|];
      [reflexivity|].
    destruct e as [ | b | t | t | b | outcome | i ];
      try (apply conversationRef_step; reflexivity).
    destruct w as [s [|n]]; [reflexivity|]. simpl pending.
    destruct (decoded outcome) as [r|] eqn:Hd.
    + rewrite (step_settles_answered s n outcome r Hd). reflexivity.
    + rewrite (step_settles_rejected s n outcome Hd). reflexivity.
Qed.

(* ------------------------------------------------------------------ *)
(** ** Turn order *)

Lemma otherType_involutive (t : MessageType) : otherType (otherType t) = t.
Proof. destruct t; reflexivity. Qed.

Lemma alternates_snoc (ms : list Message) (m : Message) :
  forall first,
    alternates first (ms ++ [m]) =
    alternates first ms
    && sameType (type m)
         (if Nat.even (length ms) then first else otherType first).
Proof.
  induction ms as [|a ms IH]; intros first.
  - simpl. rewrite andb_true_r. reflexivity.
  - change ((a :: ms) ++ [m]) with (a :: (ms ++ [m])).
    change (alternates first (a :: ms ++ [m]))
      with (sameType (type a) first
            && alternates (otherType first) (ms ++ [m])).
    change (alternates first (a :: ms))
      with (sameType (type a) first && alternates (otherType first) ms).
    change (length (a :: ms)) with (S (length ms)).
    rewrite IH, Nat.even_succ, <- Nat.negb_even, otherType_involutive.
    destruct (Nat.even (length ms)); simpl; rewrite andb_assoc; reflexivity.
Qed.

Lemma takesTurns_step (w : World) (e : Event) :
  TakesTurns w -> pending (fst (step w e)) <= 1 ->
  TakesTurns (fst (step w e)).
Proof.
  intros (Ha & Hev & Hl & Hp) Hp'. unfold TakesTurns.
  destruct (step_kind w e)
    as [Hm Hq _ _ _ | t _ _ Hm Hq _ _ _ | o u _ Hq Hm _ _ | i m _ _ _ Hw _];
    [| | |rewrite Hw; auto].
  - rewrite Hm, Hq. auto.
  - rewrite Hm, Hq, alternates_snoc, lastMessage_snoc, length_app, Ha.
    assert (H0 : pending w = 0) by lia. rewrite H0 in Hev. rewrite Hev.
    simpl length. rewrite Nat.add_1_r, Nat.even_succ, <- Nat.negb_even, Hev.
    repeat split; lia.
  - rewrite Hm, alternates_snoc, lastMessage_snoc, length_app, Ha.
    assert (H0 : pending (fst (step w e)) = 0) by lia.
    rewrite Hq, H0 in Hev. rewrite H0. simpl in Hev. rewrite Hev.
    simpl length. rewrite Nat.add_1_r, Nat.even_succ, <- Nat.negb_even, Hev.
    repeat split; lia.
Qed.

(** X12. In every run in which at most one answer request is outstanding
    at a time, the transcript is a strict alternation of prompts and
    responses beginning with a prompt, and its last entry is a prompt
    exactly while a request is pending and a response otherwise. *)
Theorem transcript_takes_turns :
  forall (supported : bool) (events : list Event),
    atMostOnePending (initialWorld supported) events = true ->
    let w := after (initialWorld supported) events in
    alternates prompt (messages (app w)) = true
    /\ option_map type (lastMessage (messages (app w))) =
         Some (if (pending w =? 0)%nat then response else prompt).
Proof.
  intros supported events Hone w.
  assert (H : TakesTurns w).
  { unfold w. clear w.
    assert (H0 : TakesTurns (initialWorld supported))
      by (repeat split; simpl; lia).
    revert H0 Hone. generalize (initialWorld supported).
    induction events as [|e events IH]; intros w0 H0 Hone.
    - exact H0.
    - simpl in Hone. apply andb_true_iff in Hone as [Hle Hrest].
      apply Nat.leb_le in Hle. rewrite after_cons.
      apply IH; [apply takesTurns_step; assumption | exact Hrest]. }
  destruct H as (Ha & _ & Hl & _). split; assumption.
Qed.

Lemma transcript_takes_turns_witness :
  alternates prompt (messages (app (after (initialWorld true) oneTurn))) = true
  /\ option_map type
       (lastMessage (messages (app (after (initialWorld true) oneTurn)))) =
       Some response.
Proof.
  apply (transcript_takes_turns true oneTurn). reflexivity.
Defined.

(* ------------------------------------------------------------------ *)
(** ** The look of the mic button *)

(** X13. The colour and the icon of the mic button, chosen by two separate
    conditionals, always tell the same state, and they agree with the
    [disabled] attribute: the idle look (dark, microphone) is shown only on
    an enabled button, the spinner only on a disabled one, and a button
    that is disabled while the hook reports listening keeps the listening
    look. *)
Theorem button_look_consistent :
  forall s : App,
    (micButtonColour s = bg_accent1 <-> micIcon s = Activity)
    /\ (micButtonColour s = bg_accent2 <-> micIcon s = Loader)
    /\ (micButtonColour s = bg_dark <-> micIcon s = Mic)
    /\ (micIcon s = Mic -> isProcessing s = false)
    /\ (micIcon s = Loader -> isProcessing s = true)
    /\ (isListening (hook s) = true -> micIcon s = Activity).
Proof.
  intros s. unfold micButtonColour, micIcon.
  destruct (isListening (hook s)), (isProcessing s);
    repeat split; intros; congruence.
Qed.

(* ------------------------------------------------------------------ *)
(** ** Scrolling *)

Lemma scrollToBottom_supported (s : App) :
  scrollToBottom s =
  if browserSupportsSpeechRecognition (hook s) then [scrollIntoView] else [].
Proof. reflexivity. Qed.

Lemma length_step (w : World) (e : Event) :
  length (messages (app (fst (step w e)))) = length (messages (app w))
  /\ (forall b, e <> HookListening b) \/
  length (messages (app (fst (step w e)))) = length (messages (app w))
  /\ (exists b, e = HookListening b) \/
  length (messages (app (fst (step w e)))) = S (length (messages (app w)))
  /\ (forall b, e <> HookListening b).
Proof.
  destruct (step_kind w e)
    as [Hm _ _ _ _ | t He _ Hm _ _ _ _ | o u He _ Hm _ _ | i m He _ _ Hw _];
    [| | |left; rewrite Hw; split; [reflexivity | subst e; discriminate]].
  - rewrite Hm. destruct e; try (left; split; [reflexivity|discriminate]).
    right. left. split; [reflexivity | eexists; reflexivity].
  - right. right. rewrite Hm, length_app, Nat.add_1_r.
    split; [reflexivity | subst e; discriminate].
  - right. right. rewrite Hm, length_app, Nat.add_1_r.
    split; [reflexivity | subst e; discriminate].
Qed.

Lemma scrollEffects_step (w : World) (e : Event) :
  length (messages (app w))
  + length (scrollEffects (app w) (app (fst (step w e)))) =
  if browserSupportsSpeechRecognition (hook (app w)) then
    length (messages (app (fst (step w e))))
    + listeningRises (isListening (hook (app w))) [e]
  else length (messages (app w)).
Proof.
  unfold scrollEffects, listeningScrollEffect, lengthScrollEffect.
  rewrite scrollToBottom_supported, supported_step, isListening_step.
  destruct (length_step w e) as [[Hlen Hne] | [[Hlen [b ->]] | [Hlen Hne]]];
    rewrite Hlen.
  - rewrite Nat.eqb_refl.
    destruct e; try (exfalso; eapply Hne; reflexivity);
      rewrite Bool.eqb_reflx;
      destruct (browserSupportsSpeechRecognition (hook (app w)));
      simpl; lia.
  - rewrite Nat.eqb_refl.
    destruct (isListening (hook (app w))), b,
      (browserSupportsSpeechRecognition (hook (app w))); simpl; lia.
  - assert (Hn : (length (messages (app w))
                  =? S (length (messages (app w))))%nat = false)
      by (apply Nat.eqb_neq; lia).
    rewrite Hn.
    destruct e; try (exfalso; eapply Hne; reflexivity);
      rewrite Bool.eqb_reflx;
      destruct (browserSupportsSpeechRecognition (hook (app w)));
      simpl; lia.
Qed.

(** X14. The view scrolls to the bottom once for every entry appended and
    once for every time the hook turns to listening, and for nothing else
    (a growing live transcript or the end of listening does not scroll); on
    a platform without speech recognition, where the bottom marker is not
    rendered, it never scrolls. *)
Theorem scroll_accounting :
  forall (w : World) (events : list Event),
    length (messages (app w)) + length (scrolls w events) =
    if browserSupportsSpeechRecognition (hook (app w)) then
      length (messages (app (after w events)))
      + listeningRises (isListening (hook (app w))) events
    else length (messages (app w)).
Proof.
  intros w events. revert w.
  induction events as [|e events IH]; intros w.
  - rewrite after_nil. simpl.
    destruct (browserSupportsSpeechRecognition (hook (app w))); lia.
  - rewrite after_cons. cbn [scrolls]. rewrite length_app.
    pose proof (scrollEffects_step w e) as Hs.
    pose proof (IH (fst (step w e))) as Hr.
    rewrite supported_step, isListening_step in Hr.
    destruct (browserSupportsSpeechRecognition (hook (app w))); [|lia].
    destruct e; cbn [listeningRises] in Hs, Hr |- *; lia.
Qed.

(* ------------------------------------------------------------------ *)
(** ** How many entries are active *)

Lemma countActive_window (lis : bool) (n : Z) (l : list Message) :
  forall k : Z,
    (k + Z.of_nat (length l) = n)%Z ->
    let rendered :=
      mapi (fun m index => (m, getIsActive lis n (type m) index)) k l in
    length rendered = length l
    /\ countActive rendered <= 2
    /\ (lis = true -> countActive rendered = 0)
    /\ (lis = false -> l <> [] -> 1 <= countActive rendered).
Proof.
  induction l as [|a l IH]; intros k Hk.
  - simpl. split; [reflexivity|]. split; [unfold countActive; simpl; lia|].
    split; [reflexivity|]. intros _ H. exfalso. apply H. reflexivity.
  - assert (Hk' : (k + 1 + Z.of_nat (length l) = n)%Z)
      by (cbn [length] in Hk; lia).
    destruct (IH (k + 1)%Z Hk') as (Hlen & Hle & Hon & Hoff).
    cbv zeta in *. cbn [mapi length]. unfold countActive in *.
    cbn [filter snd].
    set (tail := mapi (fun m index => (m, getIsActive lis n (type m) index))
                   (k + 1)%Z l) in *.
    assert (Hcnt : length (filter snd tail) <= length l)
      by (rewrite <- Hlen; apply filter_length_le).
    assert (F1 : lis = true -> getIsActive lis n (type a) k = false)
      by (intros ->; reflexivity).
    assert (F2 : getIsActive lis n (type a) k = true -> length l <= 1).
    { unfold getIsActive. destruct lis; [discriminate|].
      destruct (Z.eqb_spec k (n - 1)), (Z.eqb_spec k (n - 2)), (type a);
        simpl; intros; try discriminate; lia. }
    assert (F3 : lis = false -> l = [] ->
                 getIsActive lis n (type a) k = true).
    { intros -> ->. unfold getIsActive. simpl in Hk'.
      destruct (Z.eqb_spec k (n - 1)); [|lia].
      destruct (type a); reflexivity. }
    destruct (getIsActive lis n (type a) k) eqn:G; cbn [length].
    + specialize (F2 eq_refl).
      split; [lia|]. split; [lia|]. split; [|intros; lia].
      intros Ht. specialize (F1 Ht). discriminate.
    + split; [lia|]. split; [lia|]. split; [exact Hon|].
      intros Hf _. apply Hoff; [exact Hf|].
      intros ->. specialize (F3 Hf eq_refl). discriminate.
Qed.

(** X15. The view lists every stored entry once and marks at most two of
    them active; while listening it marks none, and while not listening a
    non-empty transcript always has an active entry. *)
Theorem at_most_two_active :
  forall (s : App) (v : MainView),
    render s = MainUI v ->
    length (renderedMessages v) = length (messages s)
    /\ countActive (renderedMessages v) <= 2
    /\ (isListening (hook s) = true -> countActive (renderedMessages v) = 0)
    /\ (isListening (hook s) = false -> messages s <> [] ->
        1 <= countActive (renderedMessages v)).
Proof.
  intros s v Hv. unfold render in Hv.
  destruct (negb (browserSupportsSpeechRecognition (hook s)));
    [discriminate|].
  injection Hv as <-. cbn [renderedMessages].
  apply countActive_window. lia.
Qed.

Lemma at_most_two_active_witness :
  exists v : MainView,
    render (app awaiting) = MainUI v
    /\ countActive (renderedMessages v) <= 2.
Proof.
  eexists. split; [reflexivity|].
  apply (at_most_two_active (app awaiting)). reflexivity.
Defined.

(* ------------------------------------------------------------------ *)
(** ** While a request is processed *)

(** X16. Once the processing flag is up it stays up through every event
    that is not a settlement, and during that time no click reaches the
    capture engine: nothing but the settlement of a request lowers the
    flag. *)
Theorem processing_holds_until_settlement :
  forall (w : World) (events : list Event),
    isProcessing (app w) = true ->
    noSettlement events = true ->
    isProcessing (app (after w events)) = true
    /\ filter isCapture (emitted w events) = [].
Proof.
  intros w events. revert w.
  induction events as [|e events IH]; intros w Hp Hn.
  - split; [exact Hp | reflexivity].
  - simpl in Hn. apply andb_true_iff in Hn as [He Hrest].
    rewrite after_cons, emitted_cons, filter_app.
    destruct (step_kind w e)
      as [_ _ Hq _ Hfx | t _ _ _ _ Hq _ Hfx | o u Ho _ _ _ _
          | i m _ _ _ Hw Hfx].
    + destruct (IH (fst (step w e))) as [H1 H2];
        [rewrite Hq; exact Hp | exact Hrest |].
      rewrite H2. split; [exact H1|].
      destruct Hfx as [-> | (_ & _ & Hp' & _)]; [reflexivity | congruence].
    + destruct (IH (fst (step w e))) as [H1 H2]; [exact Hq | exact Hrest |].
      rewrite H2, Hfx. split; [exact H1 | reflexivity].
    + subst e. discriminate He.
    + destruct (IH (fst (step w e))) as [H1 H2];
        [rewrite Hw; exact Hp | exact Hrest |].
      rewrite H2, Hfx. split; [exact H1 | reflexivity].
Qed.

Lemma processing_holds_until_settlement_witness :
  isProcessing (app (after awaiting
    [MicButtonClick; HookListening true; MicButtonClick])) = true
  /\ filter isCapture (emitted awaiting
       [MicButtonClick; HookListening true; MicButtonClick]) = [].
Proof.
  apply (processing_holds_until_settlement awaiting); reflexivity.
Defined.
